(** * angler-esp: the configuration header [esp8266/config.h]

    The header declares four string constants, two timing constants and one
    preprocessor flag inside an include guard.  This development embeds the
    header line by line, gives the lines the meaning a C++ translation unit
    gives them (conditional inclusion, macro definition and replacement,
    definition of namespace-scope objects), and states the properties of the
    resulting bindings. *)

From Stdlib Require Import String Ascii List ZArith NArith Lia Bool.
From Stdlib Require Import Permutation.
Import ListNotations.

Local Open Scope string_scope.
Local Open Scope Z_scope.

(** ** The values written in the header *)

Definition WIFI_SSID : string := "YOUR_WIFI_SSID".
Definition WIFI_PASSWORD : string := "YOUR_WIFI_PASSWORD".
Definition SERVER_URL : string := "https://api.angler.com.ua".
Definition DEVICE_TOKEN : string := "YOUR_DEVICE_TOKEN".

Definition HEARTBEAT_INTERVAL : Z := 30000.
Definition WIFI_TIMEOUT : Z := 30000.

Definition DEBUG_SERIAL : Z := 1.

(** ** Types, literals and tokens *)

(** The object types the header uses.  [const char*] is a pointer to
    [const char]: the qualifier sits under the pointer, not on it. *)
Inductive ctype : Type :=
| TChar
| TULong
| TConst (t : ctype)
| TPtr (t : ctype).

Definition const_char_ptr : ctype := TPtr (TConst TChar).
Definition const_unsigned_long : ctype := TConst TULong.

Inductive literal : Type :=
| LStr (s : string)
| LInt (n : Z).

(** A token of an initialiser or of a macro replacement list. *)
Inductive token : Type :=
| Lit (l : literal)
| Ident (x : string).

(** A [const char*] object holds the address of a string literal, whose
    characters cannot be written; it is represented by the characters.  A
    pointer can also be null. *)
Inductive value : Type :=
| VStr (s : string)
| VInt (n : Z)
| VNull.

(** One line of a header or of a translation unit.  The type of a
    definition is kept parsed: the lines are those of a translation unit in
    which [const], [char], [unsigned] and [long] are not macro names. *)
Inductive line : Type :=
| Ifndef (m : string)
| Define (m : string) (body : list token)
| Undef (m : string)
| Endif
| Decl (ty : ctype) (x : string) (init : token)
| Blank.

(** ** The header, line by line *)

Definition config_h : list line :=
  [ Ifndef "CONFIG_H"
  ; Define "CONFIG_H" []
  ; Blank
  ; Decl const_char_ptr "WIFI_SSID" (Lit (LStr WIFI_SSID))
  ; Decl const_char_ptr "WIFI_PASSWORD" (Lit (LStr WIFI_PASSWORD))
  ; Decl const_char_ptr "SERVER_URL" (Lit (LStr SERVER_URL))
  ; Decl const_char_ptr "DEVICE_TOKEN" (Lit (LStr DEVICE_TOKEN))
  ; Blank
  ; Decl const_unsigned_long "HEARTBEAT_INTERVAL" (Lit (LInt HEARTBEAT_INTERVAL))
  ; Decl const_unsigned_long "WIFI_TIMEOUT" (Lit (LInt WIFI_TIMEOUT))
  ; Blank
  ; Define "DEBUG_SERIAL" [Lit (LInt DEBUG_SERIAL)]
  ; Blank
  ; Endif ].

(** The seven names of the data model, in the order of the header. *)
Definition string_names : list string :=
  ["WIFI_SSID"; "WIFI_PASSWORD"; "SERVER_URL"; "DEVICE_TOKEN"].
Definition timing_names : list string :=
  ["HEARTBEAT_INTERVAL"; "WIFI_TIMEOUT"].
Definition flag_names : list string :=
  ["DEBUG_SERIAL"].
Definition constant_names : list string :=
  string_names ++ timing_names ++ flag_names.

(** ** Translation of lines *)

(** [unsigned long] of the ESP8266 toolchain is 32 bits wide. *)
Definition ulong_bits : Z := 32.
Definition ulong_max : Z := 2 ^ ulong_bits - 1.
Definition to_ulong (n : Z) : Z := n mod 2 ^ ulong_bits.

Definition object : Type := string * (ctype * value).

(** What a translation unit has defined so far. *)
Record tu : Type := mkTu
  { macros : list (string * list token)
  ; objects : list object }.

Definition empty_tu : tu := mkTu [] [].

Fixpoint assoc {A : Type} (x : string) (l : list (string * A)) : option A :=
  match l with
  | [] => None
  | (y, a) :: l' => if String.eqb x y then Some a else assoc x l'
  end.

Fixpoint unbind {A : Type} (x : string) (l : list (string * A))
  : list (string * A) :=
  match l with
  | [] => []
  | (y, a) :: l' =>
      if String.eqb x y then unbind x l' else (y, a) :: unbind x l'
  end.

(** [#define] of a name that is a macro already replaces its replacement
    list (the compiler warns and goes on); a new name comes last. *)
Fixpoint bind {A : Type} (x : string) (a : A) (l : list (string * A))
  : list (string * A) :=
  match l with
  | [] => [(x, a)]
  | (y, b) :: l' =>
      if String.eqb x y then (y, a) :: l' else (y, b) :: bind x a l'
  end.

Definition lookup_macro (x : string) (st : tu) : option (list token) :=
  assoc x (macros st).
Definition lookup_object (x : string) (st : tu) : option (ctype * value) :=
  assoc x (objects st).

Definition defined (m : string) (st : tu) : bool :=
  match lookup_macro m st with Some _ => true | None => false end.

Definition literal_eqb (a b : literal) : bool :=
  match a, b with
  | LStr s, LStr t => String.eqb s t
  | LInt n, LInt m => Z.eqb n m
  | _, _ => false
  end.

Definition token_eqb (a b : token) : bool :=
  match a, b with
  | Lit l, Lit k => literal_eqb l k
  | Ident x, Ident y => String.eqb x y
  | _, _ => false
  end.

Fixpoint tokens_eqb (a b : list token) : bool :=
  match a, b with
  | [], [] => true
  | t :: a', u :: b' => token_eqb t u && tokens_eqb a' b'
  | _, _ => false
  end.

Definition value_of_literal (l : literal) : value :=
  match l with
  | LStr s => VStr s
  | LInt n => VInt n
  end.

(** Macro replacement of one token.  A macro name is replaced by its
    replacement list, which is scanned again with that macro switched off;
    the fuel bounds the nesting, which is never deeper than the number of
    macros. *)
Fixpoint expand_in (fuel : nat) (ms : list (string * list token))
    (t : token) : list token :=
  match t with
  | Lit _ => [t]
  | Ident x =>
      match assoc x ms with
      | None => [t]
      | Some body =>
          match fuel with
          | O => [t]
          | S f => flat_map (expand_in f (unbind x ms)) body
          end
      end
  end.

Definition expand (st : tu) (t : token) : list token :=
  expand_in (S (length (macros st))) (macros st) t.

(** What a token stands for once the macros are replaced: a literal, or
    the object of that name. *)
Definition object_value (st : tu) (t : token) : option value :=
  match t with
  | Lit l => Some (value_of_literal l)
  | Ident y =>
      match lookup_object y st with
      | Some (_, v) => Some v
      | None => None
      end
  end.

(** The value of a one-token expression: its replacement is one literal or
    the name of one object. *)
Definition eval (st : tu) (t : token) : option value :=
  match expand st t with
  | [u] => object_value st u
  | _ => None
  end.

Definition top_const (ty : ctype) : bool :=
  match ty with
  | TConst _ => true
  | _ => false
  end.

Definition strip_const (ty : ctype) : ctype :=
  match ty with
  | TConst t => t
  | t => t
  end.

(** Conversion of a value to an object type: the characters of a string
    and the null pointer convert to a pointer to [char], an integer
    converts to [unsigned long] modulo [2 ^ ulong_bits]. *)
Definition convert (ty : ctype) (v : value) : option value :=
  match strip_const ty, v with
  | TPtr (TConst TChar), VStr s => Some (VStr s)
  | TPtr TChar, VStr s => Some (VStr s)
  | TPtr _, VNull => Some VNull
  | TULong, VInt n => Some (VInt (to_ulong n))
  | _, _ => None
  end.

(** A literal as an initialiser: the literal [0] is a null pointer
    constant. *)
Definition init_of_literal (ty : ctype) (k : literal) : option value :=
  match strip_const ty, k with
  | TPtr _, LInt 0 => Some VNull
  | _, _ => convert ty (value_of_literal k)
  end.

(** The value an object of type [ty] gets from the one-token expression
    [t]. *)
Definition initialise (st : tu) (ty : ctype) (t : token) : option value :=
  match expand st t with
  | [Lit k] => init_of_literal ty k
  | [Ident y] =>
      match lookup_object y st with
      | Some (_, v) => convert ty v
      | None => None
      end
  | _ => None
  end.

(** The innermost open conditional decides whether a line is read; an
    [#ifndef] opened in a skipped region is skipped as a whole. *)
Definition active (conds : list bool) : bool :=
  match conds with
  | [] => true
  | b :: _ => b
  end.

(** A line that is neither [#ifndef] nor [#endif], in a region that is
    read.  The name of a definition is macro-replaced like any other token
    and has to come out as one name.  [None] is a translation error: an
    object defined twice, a name that is replaced by something else than one
    name, an initialiser of the wrong type. *)
Definition step (l : line) (st : tu) : option tu :=
  match l with
  | Define m body => Some (mkTu (bind m body (macros st)) (objects st))
  | Undef m => Some (mkTu (unbind m (macros st)) (objects st))
  | Decl ty x init =>
      match expand st (Ident x) with
      | [Ident y] =>
          match lookup_object y st with
          | Some _ => None
          | None =>
              match initialise st ty init with
              | Some w =>
                  Some (mkTu (macros st) (objects st ++ [(y, (ty, w))]))
              | None => None
              end
          end
      | _ => None
      end
  | _ => Some st
  end.

(** Reading lines with the stack of open conditionals.  The result keeps
    the stack, so that a prefix of a file can be read. *)
Fixpoint run_lines (ls : list line) (conds : list bool) (st : tu)
  : option (list bool * tu) :=
  match ls with
  | [] => Some (conds, st)
  | l :: ls' =>
      match l with
      | Ifndef m =>
          run_lines ls' ((active conds && negb (defined m st)) :: conds) st
      | Endif =>
          match conds with
          | [] => None
          | _ :: cs => run_lines ls' cs st
          end
      | _ =>
          if active conds
          then match step l st with
               | Some st' => run_lines ls' conds st'
               | None => None
               end
          else run_lines ls' conds st
      end
  end.

(** [#include] of a file: every conditional the file opens is closed by
    its end. *)
Definition include (f : list line) (st : tu) : option tu :=
  match run_lines f [] st with
  | Some ([], st') => Some st'
  | _ => None
  end.

(** Reading the name [x] at a point of the translation unit. *)
Definition read (x : string) (st : tu) : option value := eval st (Ident x).

(** The value of [x] in a translation unit that includes the header
    first. *)
Definition config_value (x : string) : option value :=
  match include config_h empty_tu with
  | Some st => read x st
  | None => None
  end.

Definition config_type (x : string) : option ctype :=
  match include config_h empty_tu with
  | Some st => option_map fst (lookup_object x st)
  | None => None
  end.

(** ** The surface of a translation unit *)

Definition visible_names (st : tu) : list string :=
  map fst (macros st) ++ map fst (objects st).

Fixpoint ctype_eqb (a b : ctype) : bool :=
  match a, b with
  | TChar, TChar => true
  | TULong, TULong => true
  | TConst a', TConst b' => ctype_eqb a' b'
  | TPtr a', TPtr b' => ctype_eqb a' b'
  | _, _ => false
  end.

Definition objects_of_type (ty : ctype) (st : tu) : list string :=
  map fst (filter (fun o => ctype_eqb (fst (snd o)) ty) (objects st)).

Definition is_nil {A : Type} (l : list A) : bool :=
  match l with
  | [] => true
  | _ :: _ => false
  end.

(** Macros that stand for a value, and macros with an empty replacement
    list. *)
Definition valued_macros (st : tu) : list string :=
  map fst (filter (fun m => negb (is_nil (snd m))) (macros st)).
Definition empty_macros (st : tu) : list string :=
  map fst (filter (fun m => is_nil (snd m)) (macros st)).

(** The names seen after including the header first are exactly
    [names]. *)
Definition surface_is (names : list string) : Prop :=
  exists st, include config_h empty_tu = Some st /\
             forall x, In x (visible_names st) <-> In x names.

(** ** The definitions as written *)

(** The name a line defines, with the tokens that define it. *)
Definition definition_of (l : line) : list (string * list token) :=
  match l with
  | Define m body => [(m, body)]
  | Decl _ x init => [(x, [init])]
  | _ => []
  end.

Definition definitions (ls : list line) : list (string * list token) :=
  flat_map definition_of ls.

Definition declared_names (ls : list line) : list string :=
  map fst (definitions ls).

Definition token_names (t : token) : list string :=
  match t with
  | Lit _ => []
  | Ident x => [x]
  end.

(** The names a definition refers to. *)
Definition mentioned (d : string * list token) : list string :=
  flat_map token_names (snd d).

Definition defines (x : string) (l : line) : bool :=
  match l with
  | Define m _ => String.eqb m x
  | Decl _ y _ => String.eqb y x
  | _ => false
  end.

(** The file without the lines that define [x]. *)
Definition without (x : string) (ls : list line) : list line :=
  filter (fun l => negb (defines x l)) ls.

Definition value_in (f : list line) (x : string) : option value :=
  match include f empty_tu with
  | Some st => read x st
  | None => None
  end.

(** ** Programs that use the header *)

(** A statement executed after the header is included: an assignment to a
    named object. *)
Inductive stmt : Type :=
| Assign (x : string) (e : token).

Fixpoint set_object (x : string) (w : value) (os : list object)
  : list object :=
  match os with
  | [] => []
  | (y, (ty, v)) :: os' =>
      if String.eqb x y then (y, (ty, w)) :: os'
      else (y, (ty, v)) :: set_object x w os'
  end.

(** The left operand of an assignment is a modifiable lvalue: after macro
    replacement, the name of an object whose type is not const-qualified.
    [None] is a statement the compiler rejects. *)
Definition exec (s : stmt) (st : tu) : option tu :=
  match s with
  | Assign x e =>
      match expand st (Ident x) with
      | [Ident y] =>
          match lookup_object y st with
          | Some (ty, _) =>
              if top_const ty then None
              else match initialise st ty e with
                   | Some w =>
                       Some (mkTu (macros st)
                                  (set_object y w (objects st)))
                   | None => None
                   end
          | None => None
          end
      | _ => None
      end
  end.

Fixpoint run (p : list stmt) (st : tu) : option tu :=
  match p with
  | [] => Some st
  | s :: p' =>
      match exec s st with
      | Some st' => run p' st'
      | None => None
      end
  end.

(** ** URIs *)

Definition in_range (lo hi : N) (c : ascii) : bool :=
  let n := N_of_ascii c in (lo <=? n)%N && (n <=? hi)%N.

Definition is_alpha (c : ascii) : bool :=
  in_range 65 90 c || in_range 97 122 c.
Definition is_digit (c : ascii) : bool := in_range 48 57 c.

Definition one_of (cs : string) (c : ascii) : bool :=
  existsb (Ascii.eqb c) (list_ascii_of_string cs).

(** RFC 3986: scheme = ALPHA *( ALPHA / DIGIT / "+" / "-" / "." ). *)
Definition is_scheme_char (c : ascii) : bool :=
  is_alpha c || is_digit c || one_of "+-." c.
Definition is_unreserved (c : ascii) : bool :=
  is_alpha c || is_digit c || one_of "-._~" c.
Definition is_sub_delim (c : ascii) : bool := one_of "!$&'()*+,;=" c.
Definition is_reg_name_char (c : ascii) : bool :=
  is_unreserved c || is_sub_delim c.
Definition is_tail_char (c : ascii) : bool :=
  is_unreserved c || is_sub_delim c || one_of ":@/?" c.

(** The longest prefix of characters that satisfy [p], and the rest. *)
Fixpoint span (p : ascii -> bool) (s : string) : string * string :=
  match s with
  | EmptyString => (EmptyString, EmptyString)
  | String c s' =>
      if p c then let (a, b) := span p s' in (String c a, b)
      else (EmptyString, s)
  end.

Definition tail_ok (s : string) : bool :=
  match s with
  | EmptyString => true
  | String c _ =>
      one_of "/?" c && forallb is_tail_char (list_ascii_of_string s)
  end.

Record uri : Type := mkUri
  { uri_scheme : string
  ; uri_host : string
  ; uri_tail : string }.

(** A recogniser for URIs of the form scheme "://" reg-name, followed by
    nothing or by a path and a query.  Every string it accepts is a URI of
    RFC 3986 with a scheme and a non-empty host. *)
Definition parse_uri (s : string) : option uri :=
  let (sch, r1) := span is_scheme_char s in
  match sch, r1 with
  | String c _, String ":" (String "/" (String "/" r2)) =>
      let (h, r3) := span is_reg_name_char r2 in
      if is_alpha c && negb (String.eqb h "") && tail_ok r3
      then Some (mkUri sch h r3)
      else None
  | _, _ => None
  end.

Definition well_formed_uri (s : string) : Prop :=
  exists u, parse_uri s = Some u /\ uri_scheme u <> "" /\ uri_host u <> "".

(** The bindings a translation unit has after including the header
    first. *)
Definition config_tu : tu :=
  mkTu [("CONFIG_H", []); ("DEBUG_SERIAL", [Lit (LInt 1)])]
       [ ("WIFI_SSID", (const_char_ptr, VStr "YOUR_WIFI_SSID"))
       ; ("WIFI_PASSWORD", (const_char_ptr, VStr "YOUR_WIFI_PASSWORD"))
       ; ("SERVER_URL", (const_char_ptr, VStr "https://api.angler.com.ua"))
       ; ("DEVICE_TOKEN", (const_char_ptr, VStr "YOUR_DEVICE_TOKEN"))
       ; ("HEARTBEAT_INTERVAL", (const_unsigned_long, VInt 30000))
       ; ("WIFI_TIMEOUT", (const_unsigned_long, VInt 30000)) ].

(** ** The header among the definitions of a translation unit *)



(** The lines between [#ifndef CONFIG_H] and [#endif], and a file with
    other lines inside the same guard. *)
Definition config_body : list line := removelast (tl config_h).
Definition guarded (body : list line) : list line :=
  Ifndef "CONFIG_H" :: (body ++ [Endif])%list.

(** A line that opens or closes no conditional and removes no macro. *)
Definition plain (l : line) : bool :=
  match l with
  | Define _ _ | Decl _ _ _ | Blank => true
  | _ => false
  end.




(** The bindings of [st] followed by those of the header. *)
Definition extend (st : tu) : tu :=
  mkTu (macros st ++ macros config_tu)%list
       (objects st ++ objects config_tu)%list.


(** A line that defines or removes the macro [m]. *)
Definition sets_macro (m : string) (l : line) : bool :=
  match l with
  | Define n _ | Undef n => String.eqb n m
  | _ => false
  end.

(** A translation unit with a macro and an object of its own, at the point
    where it includes the header. *)
Definition sketch_tu : tu :=
  mkTu [("LED_PIN", [Lit (LInt 2)])] [("boot_count", (TULong, VInt 0))].

(** * Properties *)

(** ** Translation of the header *)

Lemma include_config_h : include config_h empty_tu = Some config_tu.
Proof. vm_compute. reflexivity. Qed.

Lemma config_value_table :
  map config_value constant_names =
  [ Some (VStr WIFI_SSID); Some (VStr WIFI_PASSWORD); Some (VStr SERVER_URL)
  ; Some (VStr DEVICE_TOKEN); Some (VInt HEARTBEAT_INTERVAL)
  ; Some (VInt WIFI_TIMEOUT); Some (VInt DEBUG_SERIAL) ].
Proof. vm_compute. reflexivity. Qed.

(** The guard works: where [CONFIG_H] is already defined, including the
    header changes nothing, whatever else is defined. *)
Lemma include_guard_skips (st : tu) :
  defined "CONFIG_H" st = true -> include config_h st = Some st.
Proof.
  intro Hdef. unfold include, config_h. simpl run_lines.
  rewrite Hdef. reflexivity.
Qed.

Lemma include_twice :
  include (config_h ++ config_h) empty_tu = include config_h empty_tu.
Proof. vm_compute. reflexivity. Qed.

(** The flag is a macro: lines after the header can define it again, with
    or without removing it first, and it then reads the new value. *)
Lemma debug_serial_redefined :
  value_in (config_h ++ [Undef "DEBUG_SERIAL";
                         Define "DEBUG_SERIAL" [Lit (LInt 0)]])
           "DEBUG_SERIAL" = Some (VInt 0) /\
  value_in (config_h ++ [Define "DEBUG_SERIAL" [Lit (LInt 0)]])
           "DEBUG_SERIAL" = Some (VInt 0).
Proof. split; vm_compute; reflexivity. Qed.

(** ** The claims *)

Ltac each_name := repeat (apply Forall_cons || apply Forall_nil).

(** C1: every declared constant has a non-empty, valid value of its
    declared type.  Each of the four string constants is a [const char*]
    that holds a non-empty string, and each of the two timing constants is
    a [const unsigned long] that holds a positive integer in the range of
    the type. *)
Theorem constants_have_valid_values :
  Forall (fun x => exists s,
              config_value x = Some (VStr s) /\
              config_type x = Some const_char_ptr /\
              s <> "" /\ (0 < String.length s)%nat)
         string_names /\
  Forall (fun x => exists n,
              config_value x = Some (VInt n) /\
              config_type x = Some const_unsigned_long /\
              0 < n <= ulong_max)
         timing_names.
Proof.
  split; each_name; eexists;
    (split; [vm_compute; reflexivity |]);
    (split; [vm_compute; reflexivity |]).
  1-4: split; [discriminate | simpl; lia].
  all: unfold ulong_max, ulong_bits; simpl; lia.
Qed.

(** C2, as the header has it: the names a program sees after including the
    header are the seven constants and the include-guard macro [CONFIG_H],
    and nothing else.  The objects of type [const char*] are the four
    string constants, the objects of type [const unsigned long] are the two
    timing constants, the only macro that stands for a value is
    [DEBUG_SERIAL], and the only macro with an empty replacement list is
    [CONFIG_H]. *)
Theorem surface_with_include_guard :
  surface_is (constant_names ++ ["CONFIG_H"]) /\
  exists st, include config_h empty_tu = Some st /\
             objects_of_type const_char_ptr st = string_names /\
             objects_of_type const_unsigned_long st = timing_names /\
             valued_macros st = flag_names /\
             empty_macros st = ["CONFIG_H"] /\
             length (objects st) = 6%nat /\
             length (macros st) = 2%nat.
Proof.
  split.
  - exists config_tu. split; [exact include_config_h |].
    intro x. simpl. tauto.
  - exists config_tu. split; [exact include_config_h |].
    repeat split; reflexivity.
Qed.

(** C2, as stated, fails: the include-guard macro [CONFIG_H] is visible
    after inclusion and is not one of the seven constants. *)
Lemma surface_not_only_constants : ~ surface_is constant_names.
Proof.
  intros [st [Hinc Hsurf]].
  rewrite include_config_h in Hinc. injection Hinc as <-.
  assert (Hin : In "CONFIG_H" (visible_names config_tu)) by (simpl; tauto).
  apply Hsurf in Hin. simpl in Hin.
  repeat (destruct Hin as [Hin | Hin]; [discriminate Hin |]).
  exact Hin.
Qed.

(** C3: the set of declared names is stable.  The seven names are pairwise
    distinct, no name is defined by two lines of the header, each of the
    seven is defined by exactly one line, and none is missing: each has a
    value after inclusion. *)
Theorem declared_names_stable :
  NoDup constant_names /\
  NoDup (declared_names config_h) /\
  Forall (fun x =>
            count_occ string_dec (declared_names config_h) x = 1%nat)
         constant_names /\
  Forall (fun x => exists v, config_value x = Some v) constant_names.
Proof.
  repeat split.
  - repeat constructor; simpl; intuition discriminate.
  - repeat constructor; simpl; intuition discriminate.
  - each_name; vm_compute; reflexivity.
  - each_name; eexists; vm_compute; reflexivity.
Qed.

(** C4: the header does not give the four string constants a fixed
    value.  [const char* WIFI_SSID] is a pointer to [const char] that is not
    itself const: after inclusion [WIFI_SSID] reads [YOUR_WIFI_SSID], the
    assignment of another string to it is accepted, and it then reads that
    string, not the value it was defined with.  The timing constants beside
    it are const-qualified objects: the same assignment to either of them is
    rejected. *)
Theorem string_pointer_reassigned :
  exists st fin,
    include config_h empty_tu = Some st /\
    read "WIFI_SSID" st = Some (VStr "YOUR_WIFI_SSID") /\
    run [Assign "WIFI_SSID" (Lit (LStr "home"))] st = Some fin /\
    read "WIFI_SSID" fin = Some (VStr "home") /\
    run [Assign "HEARTBEAT_INTERVAL" (Lit (LInt 5))] st = None /\
    run [Assign "WIFI_TIMEOUT" (Lit (LInt 5))] st = None.
Proof.
  exists config_tu.
  exists (mkTu (macros config_tu)
               (set_object "WIFI_SSID" (VStr "home") (objects config_tu))).
  split; [exact include_config_h |].
  repeat split; vm_compute; reflexivity.
Qed.

(** C5: the constants are defined independently of one another.  Each of
    the seven is defined by a single literal, no definition of the header
    mentions a name, the value of every defining token is the same in
    every environment, and removing the definition of one constant from the
    header leaves the value of every other constant as it was. *)
Theorem constants_independent :
  Forall (fun x => exists l,
              assoc x (definitions config_h) = Some [Lit l])
         constant_names /\
  Forall (fun d => mentioned d = []) (definitions config_h) /\
  Forall (fun d => forall st st' : tu,
              map (eval st) (snd d) = map (eval st') (snd d))
         (definitions config_h) /\
  Forall (fun y =>
            Forall (fun x =>
                      x = y \/
                      value_in (without y config_h) x = config_value x)
                   constant_names)
         constant_names.
Proof.
  repeat split.
  - each_name; eexists; vm_compute; reflexivity.
  - each_name; reflexivity.
  - each_name; intros st st'; reflexivity.
  - each_name;
      first [left; reflexivity | right; vm_compute; reflexivity].
Qed.

(** C6: [SERVER_URL] is a well-formed URI: it parses with the scheme
    [https] and the host [api.angler.com.ua], both non-empty, and nothing
    after the host. *)
Theorem server_url_is_uri :
  config_value "SERVER_URL" = Some (VStr SERVER_URL) /\
  parse_uri SERVER_URL = Some (mkUri "https" "api.angler.com.ua" "") /\
  well_formed_uri SERVER_URL.
Proof.
  split; [vm_compute; reflexivity |].
  split; [vm_compute; reflexivity |].
  exists (mkUri "https" "api.angler.com.ua" "").
  split; [vm_compute; reflexivity |].
  split; discriminate.
Qed.

(** C7: the debug flag is a boolean-like integer: reading [DEBUG_SERIAL]
    yields the integer the header defines it as, which is 0 or 1. *)
Theorem debug_serial_boolean :
  config_value "DEBUG_SERIAL" = Some (VInt DEBUG_SERIAL) /\
  (DEBUG_SERIAL = 0 \/ DEBUG_SERIAL = 1).
Proof.
  split; [vm_compute; reflexivity | right; reflexivity].
Qed.

(** C8: the two timing constants are equal, both 30000 milliseconds. *)
Theorem timing_constants_equal :
  config_value "HEARTBEAT_INTERVAL" = Some (VInt 30000) /\
  config_value "WIFI_TIMEOUT" = Some (VInt 30000) /\
  HEARTBEAT_INTERVAL = WIFI_TIMEOUT /\
  HEARTBEAT_INTERVAL = 30000.
Proof. repeat split; vm_compute; reflexivity. Qed.

(** C9: the three secret-bearing string constants are placeholders: the
    values of [WIFI_SSID], [WIFI_PASSWORD] and [DEVICE_TOKEN] are
    [YOUR_WIFI_SSID], [YOUR_WIFI_PASSWORD] and [YOUR_DEVICE_TOKEN], each
    beginning with [YOUR_]. *)
Theorem secrets_are_placeholders :
  map config_value ["WIFI_SSID"; "WIFI_PASSWORD"; "DEVICE_TOKEN"] =
  [ Some (VStr "YOUR_WIFI_SSID"); Some (VStr "YOUR_WIFI_PASSWORD")
  ; Some (VStr "YOUR_DEVICE_TOKEN") ] /\
  Forall (fun s => String.prefix "YOUR_" s = true)
         [WIFI_SSID; WIFI_PASSWORD; DEVICE_TOKEN].
Proof.
  split; [vm_compute; reflexivity |].
  each_name; vm_compute; reflexivity.
Qed.

(** C10: the service endpoint uses secure transport: the value of
    [SERVER_URL] begins with [https://]. *)
Theorem server_url_https :
  config_value "SERVER_URL" = Some (VStr SERVER_URL) /\
  String.prefix "https://" SERVER_URL = true.
Proof. split; vm_compute; reflexivity. Qed.

(** ** The header among the definitions of a translation unit *)

Lemma config_h_guarded : config_h = guarded config_body.
Proof. reflexivity. Qed.

Lemma assoc_app {A : Type} (x : string) (l l' : list (string * A)) :
  assoc x (l ++ l') =
  match assoc x l with
  | Some a => Some a
  | None => assoc x l'
  end.
Proof.
  induction l as [| [y a] l IH]; simpl.
  - reflexivity.
  - destruct (String.eqb x y); [reflexivity | exact IH].
Qed.

Lemma assoc_bind {A : Type} (z x : string) (a : A) (l : list (string * A)) :
  assoc z (bind x a l) = if String.eqb z x then Some a else assoc z l.
Proof.
  induction l as [| [y b] l IH]; simpl.
  - reflexivity.
  - destruct (String.eqb_spec x y) as [-> | Hxy]; simpl.
    + destruct (String.eqb z y); reflexivity.
    + destruct (String.eqb_spec z y) as [-> | Hzy].
      * apply not_eq_sym, String.eqb_neq in Hxy. rewrite Hxy. reflexivity.
      * exact IH.
Qed.


Lemma assoc_unbind {A : Type} (z x : string) (l : list (string * A)) :
  assoc z (unbind x l) = if String.eqb z x then None else assoc z l.
Proof.
  induction l as [| [y b] l IH]; simpl.
  - destruct (String.eqb z x); reflexivity.
  - destruct (String.eqb_spec x y) as [-> | Hxy]; simpl.
    + rewrite IH. destruct (String.eqb z y); reflexivity.
    + destruct (String.eqb_spec z y) as [-> | Hzy].
      * apply not_eq_sym, String.eqb_neq in Hxy. rewrite Hxy. reflexivity.
      * exact IH.
Qed.

(** No line removes or changes an object. *)
Lemma step_objects (l : line) (st st' : tu) :
  step l st = Some st' ->
  forall y o, lookup_object y st = Some o -> lookup_object y st' = Some o.
Proof.
  intros Hstep y o Hy.
  destruct l as [m | m body | m | | ty x init |]; cbn [step] in Hstep;
    try (injection Hstep as <-; exact Hy).
  destruct (expand st (Ident x)) as [| [k | z] [| u us]];
    try discriminate Hstep.
  destruct (lookup_object z st); [discriminate |].
  destruct (initialise st ty init) as [w |]; [| discriminate].
  injection Hstep as <-. unfold lookup_object in *. cbn [objects].
  pose proof (assoc_app y (objects st) [(z, (ty, w))]) as Happ.
  rewrite Hy in Happ. exact Happ.
Qed.

(** A line that neither defines nor removes [m] leaves it as it is. *)
Lemma step_macro (m : string) (l : line) (st st' : tu) :
  sets_macro m l = false ->
  step l st = Some st' ->
  lookup_macro m st' = lookup_macro m st.
Proof.
  intros Hset Hstep.
  destruct l as [n | n body | n | | ty x init |];
    cbn [step sets_macro] in Hstep, Hset;
    try (injection Hstep as <-; reflexivity).
  - injection Hstep as <-. unfold lookup_macro. cbn [macros].
    rewrite assoc_bind, String.eqb_sym, Hset. reflexivity.
  - injection Hstep as <-. unfold lookup_macro. cbn [macros].
    rewrite assoc_unbind, String.eqb_sym, Hset. reflexivity.
  - destruct (expand st (Ident x)) as [| [k | z] [| u us]];
      try discriminate Hstep.
    destruct (lookup_object z st); [discriminate |].
    destruct (initialise st ty init) as [w |]; [| discriminate].
    injection Hstep as <-. reflexivity.
Qed.

Lemma run_lines_objects (ls : list line) :
  forall (cs cs' : list bool) (st st' : tu),
    run_lines ls cs st = Some (cs', st') ->
    forall y o, lookup_object y st = Some o -> lookup_object y st' = Some o.
Proof.
  induction ls as [| l ls IH]; intros cs cs' st st' Hrun y o Hy.
  - injection Hrun as <- <-. exact Hy.
  - assert (Hnext : forall st1, step l st = Some st1 ->
                      run_lines ls cs st1 = Some (cs', st') ->
                      lookup_object y st' = Some o).
    { intros st1 Hstep Hrest.
      exact (IH _ _ _ _ Hrest y o (step_objects _ _ _ Hstep y o Hy)). }
    destruct l as [m | m body | m | | ty x init |]; cbn [run_lines] in Hrun.
    + exact (IH _ _ _ _ Hrun y o Hy).
    + destruct (active cs); [| exact (IH _ _ _ _ Hrun y o Hy)].
      destruct (step (Define m body) st) as [st1 |] eqn:Hstep;
        [exact (Hnext _ eq_refl Hrun) | discriminate Hrun].
    + destruct (active cs); [| exact (IH _ _ _ _ Hrun y o Hy)].
      destruct (step (Undef m) st) as [st1 |] eqn:Hstep;
        [exact (Hnext _ eq_refl Hrun) | discriminate Hrun].
    + destruct cs as [| c cs]; [discriminate Hrun |].
      exact (IH _ _ _ _ Hrun y o Hy).
    + destruct (active cs); [| exact (IH _ _ _ _ Hrun y o Hy)].
      destruct (step (Decl ty x init) st) as [st1 |] eqn:Hstep;
        [exact (Hnext _ eq_refl Hrun) | discriminate Hrun].
    + destruct (active cs); exact (IH _ _ _ _ Hrun y o Hy).
Qed.

Lemma run_lines_macro (m : string) (ls : list line) :
  forallb (fun l => negb (sets_macro m l)) ls = true ->
  forall (cs cs' : list bool) (st st' : tu),
    run_lines ls cs st = Some (cs', st') ->
    lookup_macro m st' = lookup_macro m st.
Proof.
  induction ls as [| l ls IH]; intros Hall cs cs' st st' Hrun.
  - injection Hrun as <- <-. reflexivity.
  - simpl in Hall. apply andb_true_iff in Hall as [Hl Hls].
    apply negb_true_iff in Hl. specialize (IH Hls).
    assert (Hnext : forall st1, step l st = Some st1 ->
                      run_lines ls cs st1 = Some (cs', st') ->
                      lookup_macro m st' = lookup_macro m st).
    { intros st1 Hstep Hrest.
      rewrite (IH _ _ _ _ Hrest). exact (step_macro m l st st1 Hl Hstep). }
    destruct l as [n | n body | n | | ty x init |]; cbn [run_lines] in Hrun.
    + exact (IH _ _ _ _ Hrun).
    + destruct (active cs); [| exact (IH _ _ _ _ Hrun)].
      destruct (step (Define n body) st) as [st1 |] eqn:Hstep;
        [exact (Hnext _ eq_refl Hrun) | discriminate Hrun].
    + destruct (active cs); [| exact (IH _ _ _ _ Hrun)].
      destruct (step (Undef n) st) as [st1 |] eqn:Hstep;
        [exact (Hnext _ eq_refl Hrun) | discriminate Hrun].
    + destruct cs as [| c cs]; [discriminate Hrun |].
      exact (IH _ _ _ _ Hrun).
    + destruct (active cs); [| exact (IH _ _ _ _ Hrun)].
      destruct (step (Decl ty x init) st) as [st1 |] eqn:Hstep;
        [exact (Hnext _ eq_refl Hrun) | discriminate Hrun].
    + destruct (active cs); exact (IH _ _ _ _ Hrun).
Qed.

Lemma run_lines_app (a b : list line) :
  forall (cs : list bool) (st : tu),
    run_lines (a ++ b) cs st =
    match run_lines a cs st with
    | Some (cs', st') => run_lines b cs' st'
    | None => None
    end.
Proof.
  induction a as [| l a IH]; intros cs st.
  - reflexivity.
  - destruct l as [m | m body | m | | ty x init |];
      cbn [app run_lines].
    + apply IH.
    + destruct (active cs); [| apply IH].
      destruct (step (Define m body) st); [apply IH | reflexivity].
    + destruct (active cs); [| apply IH].
      destruct (step (Undef m) st); [apply IH | reflexivity].
    + destruct cs; [reflexivity | apply IH].
    + destruct (active cs); [| apply IH].
      destruct (step (Decl ty x init) st); [apply IH | reflexivity].
    + destruct (active cs); [| apply IH].
      destruct (step Blank st); [apply IH | reflexivity].
Qed.

(** Plain lines leave the open conditionals as they are, and in a skipped
    region they define nothing. *)
Lemma run_lines_plain (ls : list line) :
  forallb plain ls = true ->
  forall (cs cs' : list bool) (st st' : tu),
    run_lines ls cs st = Some (cs', st') ->
    cs' = cs /\ (active cs = false -> st' = st).
Proof.
  induction ls as [| l ls IH]; intros Hall cs cs' st st' Hrun.
  - injection Hrun as <- <-. split; [reflexivity | intros _; reflexivity].
  - simpl in Hall. apply andb_true_iff in Hall as [Hl Hls].
    specialize (IH Hls).
    destruct l as [m | m body | m | | ty x init |]; try discriminate Hl;
      cbn [run_lines] in Hrun.
    + destruct (active cs) eqn:Hact.
      * destruct (step (Define m body) st) as [st1 |];
          [| discriminate Hrun].
        destruct (IH _ _ _ _ Hrun) as [-> _].
        split; [reflexivity | discriminate].
      * destruct (IH _ _ _ _ Hrun) as [-> Hskip].
        split; [reflexivity | intros _; exact (Hskip Hact)].
    + destruct (active cs) eqn:Hact.
      * destruct (step (Decl ty x init) st) as [st1 |];
          [| discriminate Hrun].
        destruct (IH _ _ _ _ Hrun) as [-> _].
        split; [reflexivity | discriminate].
      * destruct (IH _ _ _ _ Hrun) as [-> Hskip].
        split; [reflexivity | intros _; exact (Hskip Hact)].
    + assert (Hrun' : run_lines ls cs st = Some (cs', st'))
        by (destruct (active cs); exact Hrun).
      exact (IH _ _ _ _ Hrun').
Qed.

Lemma config_body_plain : forallb plain config_body = true.
Proof. reflexivity. Qed.

(** A guarded file closes the conditional it opens: read at top level, it
    ends at top level. *)
Lemma guarded_balanced (body : list line) (st : tu) :
  forallb plain body = true ->
  run_lines (guarded body) [] st =
  match include (guarded body) st with
  | Some st' => Some ([], st')
  | None => None
  end.
Proof.
  intro Hplain. unfold include, guarded.
  cbn [run_lines active andb].
  rewrite run_lines_app.
  destruct (run_lines body [negb (defined "CONFIG_H" st)] st)
    as [[cs1 st1] |] eqn:Hbody; [| reflexivity].
  destruct (run_lines_plain _ Hplain _ _ _ _ Hbody) as [-> _].
  reflexivity.
Qed.

(** After a successful inclusion the guard macro is defined. *)
Lemma include_defines_guard (st st' : tu) :
  include config_h st = Some st' -> defined "CONFIG_H" st' = true.
Proof.
  intro Hinc. destruct (defined "CONFIG_H" st) eqn:Hdef.
  - rewrite (include_guard_skips st Hdef) in Hinc.
    injection Hinc as <-. exact Hdef.
  - unfold include in Hinc.
    destruct (run_lines config_h [] st) as [[cs st1] |] eqn:Hrun;
      [| discriminate Hinc].
    destruct cs; [| discriminate Hinc]. injection Hinc as ->.
    change config_h
      with ([Ifndef "CONFIG_H"; Define "CONFIG_H" []] ++ skipn 2 config_h)%list
      in Hrun.
    rewrite run_lines_app in Hrun.
    cbn [run_lines active andb step] in Hrun.
    rewrite Hdef in Hrun. cbn [negb] in Hrun.
    unfold defined.
    rewrite (run_lines_macro "CONFIG_H" (skipn 2 config_h) eq_refl
               _ _ _ _ Hrun).
    unfold lookup_macro. cbn [macros].
    rewrite assoc_bind. reflexivity.
Qed.













(** ** Macro replacement *)













(** ** Properties of the header in any translation unit *)

(** X1: inclusion is idempotent.  In whatever translation unit the header
    is included with success, including it again succeeds and changes
    nothing. *)
Theorem include_idempotent (st st' : tu) :
  include config_h st = Some st' ->
  include config_h st' = Some st'.
Proof.
  intro Hinc. apply include_guard_skips.
  exact (include_defines_guard st st' Hinc).
Qed.

Lemma include_idempotent_witness :
  include config_h sketch_tu = Some (extend sketch_tu) /\
  include config_h (extend sketch_tu) = Some (extend sketch_tu).
Proof.
  split; [reflexivity |].
  apply (include_idempotent sketch_tu (extend sketch_tu)). reflexivity.
Defined.

(** X2: where [CONFIG_H] is already defined, the whole header is skipped:
    inclusion leaves the translation unit as it was, and the lines after
    the header are read as if the header were not there.  None of the
    constants is defined by it. *)
Theorem guard_defined_skips_header (st : tu) (rest : list line) :
  defined "CONFIG_H" st = true ->
  include config_h st = Some st /\
  run_lines (config_h ++ rest) [] st = run_lines rest [] st.
Proof.
  intro Hdef.
  pose proof (include_guard_skips st Hdef) as Hinc.
  split; [exact Hinc |].
  rewrite run_lines_app, config_h_guarded, guarded_balanced
    by exact config_body_plain.
  rewrite <- config_h_guarded, Hinc. reflexivity.
Qed.

Lemma guard_defined_skips_header_witness :
  defined "CONFIG_H" (mkTu [("CONFIG_H", [Lit (LInt 1)])] []) = true /\
  include config_h (mkTu [("CONFIG_H", [Lit (LInt 1)])] []) =
    Some (mkTu [("CONFIG_H", [Lit (LInt 1)])] []) /\
  run_lines (config_h ++ [Decl const_char_ptr "ssid" (Ident "WIFI_SSID")])
            [] (mkTu [("CONFIG_H", [Lit (LInt 1)])] []) =
  run_lines [Decl const_char_ptr "ssid" (Ident "WIFI_SSID")]
            [] (mkTu [("CONFIG_H", [Lit (LInt 1)])] []).
Proof.
  split; [reflexivity |].
  apply (guard_defined_skips_header
           (mkTu [("CONFIG_H", [Lit (LInt 1)])] [])
           [Decl const_char_ptr "ssid" (Ident "WIFI_SSID")]).
  reflexivity.
Defined.

(** A macro that names a constant cannot be read before the inclusion and
    reads the constant after it. *)
Lemma macro_naming_a_constant :
  read "SSID" (mkTu [("SSID", [Ident "WIFI_SSID"])] []) = None /\
  value_in (Define "SSID" [Ident "WIFI_SSID"] :: config_h) "SSID"
  = Some (VStr "YOUR_WIFI_SSID").
Proof. split; vm_compute; reflexivity. Qed.





(** Where the name of the object is a macro, the header defines the object
    the macro names instead: the unit is accepted and the string is in
    [my_ssid]. *)
Lemma include_with_renamed_object :
  value_in ([Decl const_char_ptr "WIFI_SSID" (Lit (LStr "mine"));
             Define "WIFI_SSID" [Ident "my_ssid"]] ++ config_h)
           "my_ssid" = Some (VStr "YOUR_WIFI_SSID").
Proof. vm_compute. reflexivity. Qed.

(** X5: the header is self-contained.  It closes the conditional it opens,
    so a translation unit that starts with the header is read as the header
    followed by the rest, read at top level in the state the header leaves;
    if the header is rejected, so is the unit. *)
Theorem header_then_rest (rest : list line) (st : tu) :
  run_lines (config_h ++ rest) [] st =
  match include config_h st with
  | Some st' => run_lines rest [] st'
  | None => None
  end.
Proof.
  rewrite run_lines_app, config_h_guarded, guarded_balanced
    by exact config_body_plain.
  destruct (include (guarded config_body) st); reflexivity.
Qed.

(** X6: the header removes nothing.  Whatever the translation unit, a
    successful inclusion keeps every object with its type and value, and
    every macro other than [DEBUG_SERIAL] with its replacement list.
    [DEBUG_SERIAL] is set: where the guard was not defined, it stands for 1
    after the inclusion, whatever it stood for before. *)
Theorem include_preserves_definitions (st st' : tu) :
  include config_h st = Some st' ->
  (forall y o, lookup_object y st = Some o -> lookup_object y st' = Some o) /\
  (forall y body, y <> "DEBUG_SERIAL" ->
                  lookup_macro y st = Some body ->
                  lookup_macro y st' = Some body) /\
  (defined "CONFIG_H" st = false ->
   lookup_macro "DEBUG_SERIAL" st' = Some [Lit (LInt 1)]).
Proof.
  intro Hinc.
  pose proof Hinc as Hrun. unfold include in Hrun.
  destruct (run_lines config_h [] st) as [[cs st1] |] eqn:Hlines;
    [| discriminate Hrun].
  destruct cs; [| discriminate Hrun]. injection Hrun as ->.
  split; [exact (run_lines_objects config_h _ _ _ _ Hlines) |].
  split.
  - intros y body Hy Hlook.
    destruct (String.eqb_spec y "CONFIG_H") as [-> | Hguard].
    + assert (Hdef : defined "CONFIG_H" st = true)
        by (unfold defined; rewrite Hlook; reflexivity).
      rewrite (include_guard_skips st Hdef) in Hinc.
      injection Hinc as <-. exact Hlook.
    + assert (Hall : forallb (fun l => negb (sets_macro y l)) config_h
                     = true).
      { apply not_eq_sym, String.eqb_neq in Hy.
        apply not_eq_sym, String.eqb_neq in Hguard.
        unfold config_h. cbn [forallb sets_macro negb andb].
        rewrite Hy, Hguard. reflexivity. }
      rewrite (run_lines_macro y config_h Hall _ _ _ _ Hlines).
      exact Hlook.
  - intro Hdef.
    change config_h
      with (firstn 11 config_h
            ++ [Define "DEBUG_SERIAL" [Lit (LInt 1)]]
            ++ skipn 12 config_h)%list in Hlines.
    rewrite !run_lines_app in Hlines.
    destruct (run_lines (firstn 11 config_h) [] st) as [[cs1 st2] |] eqn:Hpre;
      [| discriminate Hlines].
    assert (Hcs : cs1 = [true]).
    { change (firstn 11 config_h)
        with (Ifndef "CONFIG_H" :: firstn 10 (tl config_h)) in Hpre.
      cbn [run_lines active andb] in Hpre. rewrite Hdef in Hpre.
      exact (proj1 (run_lines_plain (firstn 10 (tl config_h)) eq_refl
                      _ _ _ _ Hpre)). }
    subst cs1. cbn [app run_lines active step] in Hlines.
    rewrite (run_lines_macro "DEBUG_SERIAL" (skipn 12 config_h) eq_refl
               _ _ _ _ Hlines).
    unfold lookup_macro. cbn [macros]. rewrite assoc_bind. reflexivity.
Qed.

Lemma include_preserves_definitions_witness :
  include config_h
          (mkTu [("LED_PIN", [Lit (LInt 2)]);
                 ("DEBUG_SERIAL", [Lit (LInt 0)])]
                [("boot_count", (TULong, VInt 0))]) =
    Some (mkTu [("LED_PIN", [Lit (LInt 2)]);
                ("DEBUG_SERIAL", [Lit (LInt 1)]);
                ("CONFIG_H", [])]
               ([("boot_count", (TULong, VInt 0))] ++ objects config_tu)) /\
  lookup_object "boot_count"
    (mkTu [("LED_PIN", [Lit (LInt 2)]);
           ("DEBUG_SERIAL", [Lit (LInt 1)]);
           ("CONFIG_H", [])]
          ([("boot_count", (TULong, VInt 0))] ++ objects config_tu)) =
    Some (TULong, VInt 0) /\
  lookup_macro "LED_PIN"
    (mkTu [("LED_PIN", [Lit (LInt 2)]);
           ("DEBUG_SERIAL", [Lit (LInt 1)]);
           ("CONFIG_H", [])]
          ([("boot_count", (TULong, VInt 0))] ++ objects config_tu)) =
    Some [Lit (LInt 2)] /\
  lookup_macro "DEBUG_SERIAL"
    (mkTu [("LED_PIN", [Lit (LInt 2)]);
           ("DEBUG_SERIAL", [Lit (LInt 1)]);
           ("CONFIG_H", [])]
          ([("boot_count", (TULong, VInt 0))] ++ objects config_tu)) =
    Some [Lit (LInt 1)].
Proof.
  split; [reflexivity |].
  destruct (include_preserves_definitions
              (mkTu [("LED_PIN", [Lit (LInt 2)]);
                     ("DEBUG_SERIAL", [Lit (LInt 0)])]
                    [("boot_count", (TULong, VInt 0))])
              (mkTu [("LED_PIN", [Lit (LInt 2)]);
                     ("DEBUG_SERIAL", [Lit (LInt 1)]);
                     ("CONFIG_H", [])]
                    ([("boot_count", (TULong, VInt 0))]
                     ++ objects config_tu))
              eq_refl) as [Ho [Hm Hflag]].
  split; [apply Ho; reflexivity |].
  split; [apply Hm; [discriminate | reflexivity] |].
  apply Hflag. reflexivity.
Defined.


